(** * stubmethods: which interface a concrete type is meant to implement

    A shallow embedding of package [stubmethods] ([GetStubInfo] and its
    helpers [fromCallExpr], [fromReturnStmt], [fromValueSpec],
    [fromAssignStmt], [ifaceType], [ifaceObjFromType], [concreteType] and
    [enclosingFunction]) together with the fragments of [go/token],
    [go/ast] and [go/types] that the package inspects.

    Pointers that may be nil are options; a nil dereference or an index
    out of range is the outcome [Panic]. *)

From Stdlib Require Import ZArith Lia.
From stdpp Require Import base option list strings gmap.

Set Warnings "-register-all,-clear-no-such-hyp".

(** ** go/token *)

Module token.
(** [token.Pos] is an [int] offset; [token.FileSet] is passed around as an
    opaque handle and never inspected. *)
Definition Pos := Z.
Definition FileSet := positive.
Bind Scope Z_scope with Pos.
Bind Scope positive_scope with FileSet.
End token.

(** ** Run-time panics *)

(** A Go computation either completes with a value or panics. *)
Inductive Run (A : Type) :=
| Done (a : A)
| Panic.
Arguments Done {A} a.
Arguments Panic {A}.

#[global] Instance Run_ret : MRet Run := @Done.
#[global] Instance Run_bind : MBind Run := λ A B f m,
  match m with
  | Done a => f a
  | Panic => Panic
  end.

#[global] Instance Run_fmap : FMap Run := λ A B f m,
  match m with
  | Done a => Done (f a)
  | Panic => Panic
  end.

(** ** go/types *)

Module types.

(** [types.Object] as far as it is observed: [Pkg()] (nil for objects of
    the universe scope) and [Name()].  A [*types.TypeName] is such an
    object. *)
Record Object := { Pkg : option string; Name : string }.
Definition TypeName := Object.

(** The structural form returned by [Named.Underlying()]. *)
Inductive Underlying :=
| UBasic | UStruct | UPointer | USlice | UMap | UChan | USignature
| UInterface.

(** [*types.Named]: a declared type with its own identity. *)
Record Named := { Obj : TypeName; underlying : Underlying }.

(** [types.Type].  A signature keeps the types of its parameter tuple and
    its variadic flag; [Alias] keeps the alias object and the aliased
    type. *)
Inductive Type_ :=
| Basic (name : string)
| Pointer (elem : Type_)
| Slice (elem : Type_)
| Interface
| Struct
| Tuple (vars : list Type_)
| Signature (params : list Type_) (variadic : bool)
| NamedT (n : Named)
| Alias (obj : TypeName) (rhs : Type_)
| TypeParam (obj : TypeName).

(** [types.Unalias]: follow the alias chain to the first non-alias. *)
Fixpoint Unalias (t : Type_) : Type_ :=
  match t with
  | Alias _ rhs => Unalias rhs
  | _ => t
  end.

(** [types.IsInterface] on a named type: its underlying type is an
    interface. *)
Definition IsInterface (n : Named) : bool :=
  match underlying n with UInterface => true | _ => false end.

(** [Tuple.Len] and [Tuple.At]; [At] indexes the tuple's slice and panics
    out of range. *)
Definition Len (t : list Type_) : Z := Z.of_nat (length t).

Definition At (t : list Type_) (i : Z) : Run Type_ :=
  if (i <? 0)%Z then Panic
  else match t !! Z.to_nat i with
       | Some v => Done v
       | None => Panic
       end.

End types.

(** ** go/ast *)

Module ast.
Import token.

(** Every syntax node is a heap object; [NodeId] stands for its address,
    which is what the maps of [types.Info] are keyed by. *)
Definition NodeId := positive.
Bind Scope positive_scope with NodeId.

Record CallExprOf (E : Type) := {
  call_id : NodeId;
  Fun : E;
  Args : list E;
  Rparen : Pos
}.
Arguments call_id {E}.
Arguments Fun {E}.
Arguments Args {E}.
Arguments Rparen {E}.

(** [ast.Expr]: call expressions, and every other expression form with
    its extent. *)
Inductive Expr :=
| ECall (c : CallExprOf Expr)
| EOther (id : NodeId) (pos end_ : Pos).

Definition CallExpr := CallExprOf Expr.

Definition exprId (e : Expr) : NodeId :=
  match e with
  | ECall c => call_id c
  | EOther id _ _ => id
  end.

(** [Pos()] of a call is that of its callee, [End()] is [Rparen + 1]. *)
Fixpoint Pos_ (e : Expr) : Pos :=
  match e with
  | ECall c => Pos_ (Fun c)
  | EOther _ p _ => p
  end.

Definition End_ (e : Expr) : Pos :=
  match e with
  | ECall c => (Rparen c + 1)%Z
  | EOther _ _ q => q
  end.

Record Field := { Names : list NodeId; Field_Type : Expr }.
Record FieldList := { List : list Field }.

(** [FuncType.Results] is nil for a function without results. *)
Record FuncType := {
  Params : option FieldList;
  Results : option FieldList
}.

Record FuncDecl := { FuncDecl_Name : NodeId; FuncDecl_Type : FuncType }.
Record FuncLit := { FuncLit_id : NodeId; FuncLit_Type : FuncType }.

Record ValueSpec := {
  ValueSpec_Names : list NodeId;
  ValueSpec_Type : option Expr;
  Values : list Expr
}.

Record AssignStmt := { Lhs : list Expr; Rhs : list Expr }.

Record ReturnStmt := { Return : Pos; ReturnStmt_Results : list Expr }.

Definition ReturnStmt_Pos (s : ReturnStmt) : Pos := Return s.

Definition ReturnStmt_End (s : ReturnStmt) : Pos :=
  match last (ReturnStmt_Results s) with
  | Some r => End_ r
  | None => (Return s + 6)%Z
  end.

(** [ast.Node], by the cases that the package's type switches tell
    apart. *)
Inductive Node :=
| NValueSpec (s : ValueSpec)
| NReturnStmt (s : ReturnStmt)
| NAssignStmt (s : AssignStmt)
| NCallExpr (c : CallExpr)
| NFuncDecl (d : FuncDecl)
| NFuncLit (l : FuncLit)
| NOther.

End ast.

(** ** types.Info *)

Module info.
Import ast types.

(** [Types] maps expressions to their recorded type ([TypeAndValue.Type]),
    [Defs] maps defining identifiers to their objects. *)
Record Info := {
  Types : gmap NodeId Type_;
  Defs : gmap NodeId Object
}.

(** [info.Types[e]] for a possibly nil expression; a nil key is never
    recorded. *)
Definition TypeOf (i : Info) (e : option Expr) : option Type_ :=
  match e with
  | Some e => Types i !! exprId e
  | None => None
  end.

End info.

(** ** package stubmethods *)

Module stubmethods.
Import token ast types info.

(** [StubInfo]: a concrete type that wants to stub out an interface
    type. *)
Record StubInfo := {
  Fset : FileSet;
  Interface : TypeName;
  Concrete : Named;
  Pointer : bool
}.

(** The errors built with [fmt.Errorf], by format and arguments. *)
Inductive error :=
| ErrPosNotWithin (pos lo hi : Pos)
| ErrNoEnclosingFunction
| ErrOperandCount (operands results : nat).

(** The test [e.Pos() <= pos && pos <= e.End()]. *)
Definition spans (pos : Pos) (e : Expr) : bool :=
  (Pos_ e <=? pos)%Z && (pos <=? End_ e)%Z.

(** The loop shared by the four analyzers: scan the operands in order
    and stop (break) at the first one whose extent contains [pos],
    keeping its index. *)
Fixpoint findOperandFrom (i : nat) (pos : Pos) (es : list Expr)
  : option (nat * Expr) :=
  match es with
  | [] => None
  | e :: es' =>
      if spans pos e then Some (i, e)
      else findOperandFrom (S i) pos es'
  end.

Definition findOperand := findOperandFrom 0.

(** [ifaceObjFromType] (lines 263-278). *)
Definition ifaceObjFromType (t : Type_) : option TypeName :=
  match Unalias t with
  | NamedT named =>
      if negb (IsInterface named) then None
      else if bool_decide (Pkg (Obj named) = None)
              && negb (String.eqb (Name (Obj named)) "error")
      then None
      else Some (Obj named)
  | _ => None
  end.

(** [ifaceType] (lines 255-261): the named interface type to which [e]
    refers, if any. *)
Definition ifaceType (e : option Expr) (i : Info) : option TypeName :=
  match TypeOf i e with
  | None => None
  | Some tv => ifaceObjFromType tv
  end.

(** [concreteType] (lines 287-302): the named type of [e], directly or
    behind one pointer, and whether it was behind a pointer. *)
Definition concreteType (e : Expr) (i : Info) : option Named * bool :=
  match TypeOf i (Some e) with
  | None => (None, false)
  | Some typ =>
      let '(typ, isPtr) :=
        match Unalias typ with
        | types.Pointer elem => (elem, true)
        | _ => (typ, false)
        end in
      match Unalias typ with
      | NamedT named => (Some named, isPtr)
      | _ => (None, false)
      end
  end.

(** [enclosingFunction] (lines 306-319): the type of the first function
    declaration or literal on the path for which type information is
    recorded. *)
Fixpoint enclosingFunction (path : list Node) (i : Info) : option FuncType :=
  match path with
  | [] => None
  | node :: path' =>
      match node with
      | NFuncDecl t =>
          match Defs i !! FuncDecl_Name t with
          | Some _ => Some (FuncDecl_Type t)
          | None => enclosingFunction path' i
          end
      | NFuncLit t =>
          match Types i !! FuncLit_id t with
          | Some _ => Some (FuncLit_Type t)
          | None => enclosingFunction path' i
          end
      | _ => enclosingFunction path' i
      end
  end.

(** The parameter type aligned with argument [argIdx] (lines 103-111);
    [None] is the nil [paramType]. *)
Definition paramTypeFor (params : list Type_) (variadic : bool) (argIdx : Z)
  : Run (option Type_) :=
  if variadic && (Len params - 1 <=? argIdx)%Z then
    v ← At params (Len params - 1);
    match v with
    | Slice elem => Done (Some elem)
    | _ => Done None
    end
  else if (argIdx <? Len params)%Z then
    v ← At params argIdx;
    Done (Some v)
  else Done None.

(** [fromCallExpr] once the argument [arg] at index [argIdx] has been
    found (lines 91-124). *)
Definition fromCallExprArg (fset : FileSet) (i : Info) (call : CallExpr)
    (argIdx : nat) (arg : Expr) : Run (option StubInfo) :=
  let '(concType, pointer) := concreteType arg i in
  match concType with
  | None => Done None
  | Some concType =>
      if bool_decide (Pkg (Obj concType) = None) then Done None
      else
        match TypeOf i (Some (Fun call)) with
        | None => Done None
        | Some tv =>
            match Unalias tv with
            | Signature params variadic =>
                paramType ← paramTypeFor params variadic (Z.of_nat argIdx);
                match paramType with
                | None => Done None
                | Some paramType =>
                    match ifaceObjFromType paramType with
                    | None => Done None
                    | Some iface =>
                        Done (Some {| Fset := fset;
                                      Concrete := concType;
                                      Pointer := pointer;
                                      Interface := iface |})
                    end
                end
            | _ => Done None
            end
        end
  end.

(** [fromCallExpr] (lines 76-125). *)
Definition fromCallExpr (fset : FileSet) (i : Info) (pos : Pos)
    (call : CallExpr) : Run (option StubInfo) :=
  match findOperand pos (Args call) with
  | None => Done None
  | Some (argIdx, arg) => fromCallExprArg fset i call argIdx arg
  end.

(** [fromReturnStmt] once the operand index [returnIdx] has been found
    (lines 145-167).  Indexing a slice out of range and selecting a field
    of a nil [*ast.FieldList] panic. *)
Definition fromReturnStmtAt (fset : FileSet) (i : Info) (path : list Node)
    (ret : ReturnStmt) (returnIdx : nat) : Run (option StubInfo * option error) :=
  match ReturnStmt_Results ret !! returnIdx with
  | None => Panic
  | Some r =>
      let '(concType, pointer) := concreteType r i in
      match concType with
      | None => Done (None, None)
      | Some concType =>
          if bool_decide (Pkg (Obj concType) = None) then Done (None, None)
          else
            match enclosingFunction path i with
            | None => Done (None, Some ErrNoEnclosingFunction)
            | Some funcType =>
                match Results funcType with
                | None => Panic
                | Some results =>
                    if negb (length (List results)
                             =? length (ReturnStmt_Results ret))%nat
                    then Done (None,
                               Some (ErrOperandCount
                                       (length (ReturnStmt_Results ret))
                                       (length (List results))))
                    else
                      match List results !! returnIdx with
                      | None => Panic
                      | Some field =>
                          match ifaceType (Some (Field_Type field)) i with
                          | None => Done (None, None)
                          | Some iface =>
                              Done (Some {| Fset := fset;
                                            Concrete := concType;
                                            Pointer := pointer;
                                            Interface := iface |}, None)
                          end
                      end
                end
            end
      end
  end.

(** [fromReturnStmt] (lines 132-168): the result and the error. *)
Definition fromReturnStmt (fset : FileSet) (i : Info) (pos : Pos)
    (path : list Node) (ret : ReturnStmt)
  : Run (option StubInfo * option error) :=
  match findOperand pos (ReturnStmt_Results ret) with
  | None =>
      Done (None, Some (ErrPosNotWithin pos (ReturnStmt_Pos ret)
                                        (ReturnStmt_End ret)))
  | Some (returnIdx, _) => fromReturnStmtAt fset i path ret returnIdx
  end.

(** [fromValueSpec] once the initializer [rhs] has been found (lines
    185-205): for [var _ = I(v)] the callee becomes the interface node and
    the argument the operand. *)
Definition fromValueSpecRhs (fset : FileSet) (i : Info) (spec : ValueSpec)
    (rhs : Expr) : option StubInfo :=
  let ifaceNode := ValueSpec_Type spec in
  let '(ifaceNode, rhs) :=
    match rhs, ifaceNode with
    | ECall call, None =>
        match Args call with
        | [arg] => (Some (Fun call), arg)
        | _ => (ifaceNode, rhs)
        end
    | _, _ => (ifaceNode, rhs)
    end in
  let '(concType, pointer) := concreteType rhs i in
  match concType with
  | None => None
  | Some concType =>
      if bool_decide (Pkg (Obj concType) = None) then None
      else
        match ifaceType ifaceNode i with
        | None => None
        | Some ifaceObj =>
            Some {| Fset := fset;
                    Concrete := concType;
                    Interface := ifaceObj;
                    Pointer := pointer |}
        end
  end.

(** [fromValueSpec] (lines 172-206). *)
Definition fromValueSpec (fset : FileSet) (i : Info) (spec : ValueSpec)
    (pos : Pos) : option StubInfo :=
  match findOperand pos (Values spec) with
  | None => None
  | Some (_, rhs) => fromValueSpecRhs fset i spec rhs
  end.

(** [fromAssignStmt] from the point where the right-hand operand [rhs] at
    index [idx] has been found: the bound check on [assign.Lhs] inside the
    loop and the rest of the function. *)
Definition fromAssignStmtAt (fset : FileSet) (i : Info) (assign : AssignStmt)
    (idx : nat) (rhs : Expr) : option StubInfo :=
  match Lhs assign !! idx with
  | None => None
  | Some lhs =>
      match ifaceType (Some lhs) i with
      | None => None
      | Some ifaceObj =>
          let '(concType, pointer) := concreteType rhs i in
          match concType with
          | None => None
          | Some concType =>
              if bool_decide (Pkg (Obj concType) = None) then None
              else Some {| Fset := fset;
                           Concrete := concType;
                           Interface := ifaceObj;
                           Pointer := pointer |}
          end
      end
  end.

(** [fromAssignStmt] (lines 211-252). *)
Definition fromAssignStmt (fset : FileSet) (i : Info) (assign : AssignStmt)
    (pos : Pos) : option StubInfo :=
  match findOperand pos (Rhs assign) with
  | None => None
  | Some (idx, rhs) => fromAssignStmtAt fset i assign idx rhs
  end.

(** The loop of [GetStubInfo] (lines 46-69) over the nodes that remain;
    [path] is the whole path, which [fromReturnStmt] receives. *)
Fixpoint GetStubInfoFrom (fset : FileSet) (i : Info) (path : list Node)
    (pos : Pos) (rest : list Node) : Run (option StubInfo) :=
  match rest with
  | [] => Done None
  | n :: rest' =>
      match n with
      | NValueSpec n => Done (fromValueSpec fset i n pos)
      | NReturnStmt n =>
          r ← fromReturnStmt fset i pos path n;
          Done (fst r)
      | NAssignStmt n => Done (fromAssignStmt fset i n pos)
      | NCallExpr n =>
          si ← fromCallExpr fset i pos n;
          match si with
          | Some _ => Done si
          | None => GetStubInfoFrom fset i path pos rest'
          end
      | _ => GetStubInfoFrom fset i path pos rest'
      end
  end.

(** [GetStubInfo] (lines 45-71). *)
Definition GetStubInfo (fset : FileSet) (i : Info) (path : list Node)
    (pos : Pos) : Run (option StubInfo) :=
  GetStubInfoFrom fset i path pos path.

End stubmethods.

Import token ast types info stubmethods.

(** ** Vocabulary of the specification *)

(** The inclusive containment test [start <= position <= end]. *)
Definition within (pos : Pos) (e : Expr) : Prop :=
  (Pos_ e ≤ pos ≤ End_ e)%Z.

(** The built-in [error] interface: declared in the universe scope, so
    without a package. *)
Definition universeError : TypeName := {| Pkg := None; Name := "error" |}.

(** Concrete-type resolution of the specification: [concreteType] together
    with the requirement that the named type has a declaring package. *)
Definition resolveConcrete (e : Expr) (i : Info) : option (Named * bool) :=
  match concreteType e i with
  | (Some n, ptr) =>
      match Pkg (Obj n) with
      | Some _ => Some (n, ptr)
      | None => None
      end
  | (None, _) => None
  end.

(** The result types a function declares, one per result: a field that
    groups several names, as in [(a, b T)], declares that many results of
    its type, and a field without names declares one (what
    [FieldList.NumFields] counts). *)
Definition fieldResults (f : Field) : list Expr :=
  replicate (Nat.max 1 (length (Names f))) (Field_Type f).

Definition declaredResults (ft : FuncType) : list Expr :=
  match Results ft with
  | None => []
  | Some fl => concat (map fieldResults (List fl))
  end.

(** A result list in which no field groups several names. *)
Definition ungrouped (fl : FieldList) : Prop :=
  Forall (λ f, length (Names f) ≤ 1) (List fl).

(** The inference result for a concrete type matched against the type
    [t] expected at its place. *)
Definition matchedAgainst (fset : FileSet) (concType : Named) (pointer : bool)
    (t : Type_) : option StubInfo :=
  match ifaceObjFromType t with
  | None => None
  | Some iface =>
      Some {| Fset := fset; Concrete := concType; Pointer := pointer;
              Interface := iface |}
  end.

(** The index of the last fixed parameter of a variadic signature: the
    parameter just before the variadic one. *)
Definition lastFixedParam (params : list Type_) : Z := (Len params - 2)%Z.

(** An interface object that may appear in a result. *)
Definition packagedOrError (o : TypeName) : Prop :=
  is_Some (Pkg o) ∨ o = universeError.

(** A node that the dispatcher passes over on its way outward: a node of
    no analysed shape, or a call expression whose analysis fails. *)
Definition passedOver (fset : FileSet) (i : Info) (pos : Pos) (n : Node)
  : Prop :=
  match n with
  | NValueSpec _ | NReturnStmt _ | NAssignStmt _ => False
  | NCallExpr c => fromCallExpr fset i pos c = Done None
  | NFuncDecl _ | NFuncLit _ | NOther => True
  end.







(** The outcomes of the return analyzer: an explicit error, and the
    silent failure (no result, no error). *)
Definition returnsError (fset : FileSet) (i : Info) (pos : Pos)
    (path : list Node) (ret : ReturnStmt) : Prop :=
  ∃ err, fromReturnStmt fset i pos path ret = Done (None, Some err).

Definition returnsNothing (fset : FileSet) (i : Info) (pos : Pos)
    (path : list Node) (ret : ReturnStmt) : Prop :=
  fromReturnStmt fset i pos path ret = Done (None, None).

(** The three conditions under which the specification reports an
    error: no operand contains the position; the operand's concrete type
    resolves but there is no enclosing function; the enclosing function
    declares a number of results different from the number of operands. *)
Definition noOperandAt (pos : Pos) (ret : ReturnStmt) : Prop :=
  Forall (λ r, ¬ within pos r) (ReturnStmt_Results ret).

Definition noEnclosingFunction (i : Info) (pos : Pos) (path : list Node)
    (ret : ReturnStmt) : Prop :=
  ∃ idx r, findOperand pos (ReturnStmt_Results ret) = Some (idx, r) ∧
    is_Some (resolveConcrete r i) ∧
    enclosingFunction path i = None.

Definition resultCountDiffers (i : Info) (path : list Node)
    (ret : ReturnStmt) : Prop :=
  ∃ ft, enclosingFunction path i = Some ft ∧
    length (declaredResults ft) ≠ length (ReturnStmt_Results ret).

(** The third condition in the order in which the analyzer reaches it:
    after the operand has been found and its concrete type resolved. *)
Definition resultCountDiffersAfter (i : Info) (pos : Pos) (path : list Node)
    (ret : ReturnStmt) : Prop :=
  ∃ idx r, findOperand pos (ReturnStmt_Results ret) = Some (idx, r) ∧
    is_Some (resolveConcrete r i) ∧
    resultCountDiffers i path ret.

(** The silent failures: the operand's concrete type does not resolve,
    or it does, the counts agree, and the declared result at the
    operand's index does not resolve to an interface. *)
Definition unresolved (i : Info) (pos : Pos) (path : list Node)
    (ret : ReturnStmt) : Prop :=
  ∃ idx r, findOperand pos (ReturnStmt_Results ret) = Some (idx, r) ∧
    (resolveConcrete r i = None ∨
     (is_Some (resolveConcrete r i) ∧
      ∃ ft t, enclosingFunction path i = Some ft ∧
        length (declaredResults ft) = length (ReturnStmt_Results ret) ∧
        declaredResults ft !! idx = Some t ∧
        ifaceType (Some t) i = None)).

(** The enclosing function, when there is one, has a result list with one
    field per result. *)
Definition plainResults (i : Info) (path : list Node) : Prop :=
  ∀ ft, enclosingFunction path i = Some ft →
    ∃ fl, Results ft = Some fl ∧ ungrouped fl.

(** The parameter tuple of a variadic signature is not empty. *)
Definition variadicHasParam (i : Info) : Prop :=
  ∀ k t params, Types i !! k = Some t →
    Unalias t = Signature params true → params ≠ [].

(** Every function on the path has a result list. *)
Definition resultListsPresent (path : list Node) : Prop :=
  ∀ n, n ∈ path →
    match n with
    | NFuncDecl d => is_Some (Results (FuncDecl_Type d))
    | NFuncLit l => is_Some (Results (FuncLit_Type l))
    | _ => True
    end.

(** ** A sample package

    [[
    package p

    type I interface{ M() }
    type A = I
    type T struct{}
    type U = T

    func f() (a, b I) { return T{}, T{} }
    func g()          { return T{} }
    func h() I        { return &T{} }
    func k() (I, I)   { return 1 }

    type W struct{ f func() error }
    func m() I { return W{f: func() error { return nil }} }

    func v(x T, ys ...I)
    func id(t T) T

    func calls() {
            v(T{}, T{}, T{})
            var x I
            x = id(T{})
    }

    var _ = I(T{})
    var _ I = T{}

    func nested() {
            var y I
            y = func() T { return id(T{}) }()
    }
    ]]

    Each expression is given with its node identity and its extent; [info]
    holds the types recorded for the identities. *)

Module sample.

Definition fset : FileSet := 1%positive.

Definition I : Named :=
  {| Obj := {| Pkg := Some "p"; Name := "I" |}; underlying := UInterface |}.
Definition T : Named :=
  {| Obj := {| Pkg := Some "p"; Name := "T" |}; underlying := UStruct |}.
Definition A : Type_ := Alias {| Pkg := Some "p"; Name := "A" |} (NamedT I).
Definition error_ : Named := {| Obj := universeError; underlying := UInterface |}.
Definition comparable : Named :=
  {| Obj := {| Pkg := None; Name := "comparable" |}; underlying := UInterface |}.
Definition int : Type_ := Basic "int".
Definition W : Named :=
  {| Obj := {| Pkg := Some "p"; Name := "W" |}; underlying := UStruct |}.


(** [func f() (a, b I) { return T{}, T{} }] *)
Definition f_I : Expr := EOther 13 17 18.
Definition f_op1 : Expr := EOther 20 28 31.
Definition f_op2 : Expr := EOther 21 33 36.
Definition f_ret : ReturnStmt :=
  {| Return := 21; ReturnStmt_Results := [f_op1; f_op2] |}.
Definition f_type : FuncType :=
  {| Params := Some {| List := [] |};
     Results := Some {| List := [ {| Names := [11; 12]%positive;
                                     Field_Type := f_I |} ] |} |}.
Definition f_decl : FuncDecl := {| FuncDecl_Name := 10; FuncDecl_Type := f_type |}.
Definition f_path : list Node :=
  [NOther; NReturnStmt f_ret; NOther; NFuncDecl f_decl; NOther].

(** [func g() { return T{} }] *)
Definition g_op : Expr := EOther 41 68 71.
Definition g_ret : ReturnStmt :=
  {| Return := 61; ReturnStmt_Results := [g_op] |}.
Definition g_type : FuncType :=
  {| Params := Some {| List := [] |}; Results := None |}.
Definition g_decl : FuncDecl := {| FuncDecl_Name := 40; FuncDecl_Type := g_type |}.
Definition g_path : list Node :=
  [NOther; NReturnStmt g_ret; NOther; NFuncDecl g_decl; NOther].

(** [func h() I { return &T{} }] *)
Definition h_I : Expr := EOther 51 88 89.
Definition h_op : Expr := EOther 52 99 103.
Definition h_ret : ReturnStmt :=
  {| Return := 92; ReturnStmt_Results := [h_op] |}.
Definition h_type : FuncType :=
  {| Params := Some {| List := [] |};
     Results := Some {| List := [ {| Names := []; Field_Type := h_I |} ] |} |}.
Definition h_decl : FuncDecl := {| FuncDecl_Name := 50; FuncDecl_Type := h_type |}.
Definition h_path : list Node :=
  [NOther; NOther; NReturnStmt h_ret; NOther; NFuncDecl h_decl; NOther].

(** [func k() (I, I) { return 1 }] *)
Definition k_I1 : Expr := EOther 56 115 116.
Definition k_I2 : Expr := EOther 57 118 119.
Definition k_op : Expr := EOther 58 130 131.
Definition k_ret : ReturnStmt :=
  {| Return := 123; ReturnStmt_Results := [k_op] |}.
Definition k_type : FuncType :=
  {| Params := Some {| List := [] |};
     Results := Some {| List := [ {| Names := []; Field_Type := k_I1 |};
                                  {| Names := []; Field_Type := k_I2 |} ] |} |}.
Definition k_decl : FuncDecl := {| FuncDecl_Name := 55; FuncDecl_Type := k_type |}.
Definition k_path : list Node :=
  [NOther; NReturnStmt k_ret; NOther; NFuncDecl k_decl; NOther].

(** [func m() I { return W{f: func() error { return nil }} }] *)
Definition m_I : Expr := EOther 101 160 161.
Definition m_op : Expr := EOther 102 300 340.
Definition m_ret : ReturnStmt :=
  {| Return := 293; ReturnStmt_Results := [m_op] |}.
Definition m_type : FuncType :=
  {| Params := Some {| List := [] |};
     Results := Some {| List := [ {| Names := []; Field_Type := m_I |} ] |} |}.
Definition m_decl : FuncDecl := {| FuncDecl_Name := 100; FuncDecl_Type := m_type |}.
Definition m_lit_type : FuncType :=
  {| Params := Some {| List := [] |};
     Results := Some {| List := [ {| Names := [];
                                     Field_Type := EOther 104 312 317 |} ] |} |}.
Definition m_lit : FuncLit := {| FuncLit_id := 103; FuncLit_Type := m_lit_type |}.
Definition m_path : list Node :=
  [NFuncLit m_lit; NOther; NOther; NReturnStmt m_ret; NOther;
   NFuncDecl m_decl; NOther].

(** [v(T{}, T{}, T{})] *)
Definition v_fun : Expr := EOther 70 200 201.
Definition v_a1 : Expr := EOther 71 202 205.
Definition v_a2 : Expr := EOther 72 207 210.
Definition v_a3 : Expr := EOther 73 212 215.
Definition v_call : CallExpr :=
  {| call_id := 74; Fun := v_fun; Args := [v_a1; v_a2; v_a3]; Rparen := 215 |}.

(** [x = id(T{})] *)
Definition x_lhs : Expr := EOther 80 230 231.
Definition id_fun : Expr := EOther 81 234 236.
Definition id_arg : Expr := EOther 82 237 240.
Definition id_call : CallExpr :=
  {| call_id := 83; Fun := id_fun; Args := [id_arg]; Rparen := 240 |}.
Definition x_assign : AssignStmt :=
  {| Lhs := [x_lhs]; Rhs := [ECall id_call] |}.
Definition x_path : list Node :=
  [NOther; NCallExpr id_call; NAssignStmt x_assign; NOther; NFuncDecl
     {| FuncDecl_Name := 75;
        FuncDecl_Type := {| Params := Some {| List := [] |}; Results := None |} |};
   NOther].

(** [var _ = I(T{})] and [var _ I = T{}] *)
Definition conv_fun : Expr := EOther 90 258 259.
Definition conv_arg : Expr := EOther 91 260 263.
Definition conv_call : CallExpr :=
  {| call_id := 92; Fun := conv_fun; Args := [conv_arg]; Rparen := 263 |}.
Definition typed_I : Expr := EOther 93 271 272.

Definition recordedTypes : list (NodeId * Type_) :=
  [ (13, NamedT I); (20, NamedT T); (21, NamedT T);
    (41, NamedT T);
    (51, NamedT I); (52, types.Pointer (NamedT T));
    (56, NamedT I); (57, NamedT I); (58, int);
    (70, Signature [NamedT T; Slice (NamedT I)] true);
    (71, NamedT T); (72, NamedT T); (73, NamedT T); (74, Tuple []);
    (80, NamedT I); (81, Signature [NamedT T] false);
    (82, NamedT T); (83, NamedT T);
    (90, NamedT I); (91, NamedT T); (92, NamedT I); (93, NamedT I);
    (101, NamedT I); (102, NamedT W); (103, Signature [] false);
    (104, NamedT error_)
  ]%positive.

Definition recordedDefs : list (NodeId * Object) :=
  [ (10, {| Pkg := Some "p"; Name := "f" |});
    (40, {| Pkg := Some "p"; Name := "g" |});
    (50, {| Pkg := Some "p"; Name := "h" |});
    (55, {| Pkg := Some "p"; Name := "k" |});
    (75, {| Pkg := Some "p"; Name := "calls" |});
    (100, {| Pkg := Some "p"; Name := "m" |})
  ]%positive.

Definition info : Info :=
  {| Types := list_to_map recordedTypes; Defs := list_to_map recordedDefs |}.



Definition I_T (pointer : bool) : StubInfo :=
  {| Fset := fset; Interface := Obj I; Concrete := T; Pointer := pointer |}.

(** The package once more, with the type of the variadic parameter of
    [v] itself an alias [S] of the slice type [[]I].  The type checker
    builds the slice type of a declared variadic parameter itself; a
    signature of this form is one built through the API of go/types. *)
Definition S : Type_ :=
  Alias {| Pkg := Some "p"; Name := "S" |} (Slice (NamedT I)).


(** [y = func() T { return id(T{}) }()]: the call [id(T{})] is the
    operand of a return statement of a function literal, and the literal
    is called on the right-hand side of the assignment. *)
Definition y_lhs : Expr := EOther 110 400 401.
Definition lit_T : Expr := EOther 112 411 412.
Definition lit_id_fun : Expr := EOther 113 422 424.
Definition lit_id_arg : Expr := EOther 114 425 428.
Definition lit_id_call : CallExpr :=
  {| call_id := 115; Fun := lit_id_fun; Args := [lit_id_arg]; Rparen := 428 |}.
Definition lit_ret : ReturnStmt :=
  {| Return := 415; ReturnStmt_Results := [ECall lit_id_call] |}.
Definition lit_type : FuncType :=
  {| Params := Some {| List := [] |};
     Results := Some {| List := [ {| Names := []; Field_Type := lit_T |} ] |} |}.
Definition lit : FuncLit := {| FuncLit_id := 111; FuncLit_Type := lit_type |}.
Definition lit_call : CallExpr :=
  {| call_id := 116; Fun := EOther 111 404 433; Args := []; Rparen := 434 |}.
Definition y_assign : AssignStmt :=
  {| Lhs := [y_lhs]; Rhs := [ECall lit_call] |}.
Definition y_path : list Node :=
  [NOther; NCallExpr lit_id_call; NReturnStmt lit_ret; NOther; NFuncLit lit;
   NCallExpr lit_call; NAssignStmt y_assign; NOther; NFuncDecl
     {| FuncDecl_Name := 120;
        FuncDecl_Type := {| Params := Some {| List := [] |}; Results := None |} |};
   NOther].

Definition nestedTypes : list (NodeId * Type_) :=
  [ (110, NamedT I); (111, Signature [] false); (112, NamedT T);
    (113, Signature [NamedT T] false); (114, NamedT T); (115, NamedT T);
    (116, NamedT T) ]%positive.

Definition nestedInfo : Info :=
  {| Types := list_to_map (nestedTypes ++ recordedTypes);
     Defs := list_to_map
       ((120%positive, {| Pkg := Some "p"; Name := "nested" |})
        :: recordedDefs) |}.

End sample.

(** ** Basic facts *)

#[local] Arguments TypeOf : simpl never.
#[local] Arguments ifaceObjFromType : simpl never.
#[local] Arguments ifaceType : simpl never.
#[local] Arguments concreteType : simpl never.
#[local] Arguments paramTypeFor : simpl never.
#[local] Arguments enclosingFunction : simpl never.

Lemma spans_within pos e : spans pos e = true ↔ within pos e.
Proof.
  unfold spans, within.
  rewrite andb_true_iff, !Z.leb_le. tauto.
Qed.

Lemma spans_not_within pos e : spans pos e = false ↔ ¬ within pos e.
Proof.
  rewrite <- spans_within. by rewrite not_true_iff_false.
Qed.

(** The operand loop returns the first operand that contains the
    position, with its index. *)
Lemma findOperandFrom_first k pos pre e post :
  Forall (λ x, ¬ within pos x) pre →
  within pos e →
  findOperandFrom k pos (pre ++ e :: post) = Some (k + length pre, e).
Proof.
  intros Hpre He. revert k.
  induction Hpre as [|x pre Hx _ IH]; intros k; simpl.
  - apply spans_within in He. rewrite He. do 2 f_equal. lia.
  - apply spans_not_within in Hx. rewrite Hx, IH. do 2 f_equal. lia.
Qed.

Lemma findOperandFrom_None k pos es :
  findOperandFrom k pos es = None ↔ Forall (λ x, ¬ within pos x) es.
Proof.
  revert k. induction es as [|e es IH]; intros k; simpl.
  - split; [constructor | done].
  - destruct (spans pos e) eqn:He.
    + split; [done |]. intros H. inversion H as [|? ? Hn]; subst.
      apply spans_within in He. done.
    + rewrite IH. apply spans_not_within in He. split.
      * by constructor.
      * by inversion 1.
Qed.

Lemma findOperandFrom_Some k pos es idx e :
  findOperandFrom k pos es = Some (idx, e) →
  ∃ pre post, es = pre ++ e :: post ∧ idx = k + length pre ∧
    Forall (λ x, ¬ within pos x) pre ∧ within pos e.
Proof.
  revert k. induction es as [|x es IH]; intros k; simpl; [done |].
  destruct (spans pos x) eqn:Hx.
  - intros [= <- <-]. exists [], es. simpl. split_and!; auto.
    by apply spans_within.
  - intros H. destruct (IH _ H) as (pre & post & -> & -> & Hpre & He).
    exists (x :: pre), post. simpl. split_and!; [done | lia | | done].
    constructor; [| done]. by apply spans_not_within.
Qed.

Lemma findOperand_lookup pos es idx e :
  findOperand pos es = Some (idx, e) → es !! idx = Some e.
Proof.
  intros H. apply findOperandFrom_Some in H as (pre & post & -> & -> & _).
  simpl. by rewrite list_lookup_middle.
Qed.

(** ** The matched operand (C10) *)

(** C10.  In each of the four analyzers the operand matched against the
    position is the first expression of the candidate list (call
    arguments, return operands, initializers, right-hand sides) whose
    extent contains the position under the inclusive test
    [start <= pos <= end]: when no expression of [pre] contains the
    position and [e] does, the analyzer on [pre ++ e :: post] continues
    with the operand [e] at index [length pre], whatever [post] holds. *)
Theorem first_spanning_operand_is_matched pos pre e post :
  Forall (λ x, ¬ (Pos_ x ≤ pos ≤ End_ x)%Z) pre →
  (Pos_ e ≤ pos ≤ End_ e)%Z →
  (∀ fset i call, Args call = pre ++ e :: post →
     fromCallExpr fset i pos call
     = fromCallExprArg fset i call (length pre) e) ∧
  (∀ fset i path ret, ReturnStmt_Results ret = pre ++ e :: post →
     ReturnStmt_Results ret !! length pre = Some e ∧
     fromReturnStmt fset i pos path ret
     = fromReturnStmtAt fset i path ret (length pre)) ∧
  (∀ fset i spec, Values spec = pre ++ e :: post →
     fromValueSpec fset i spec pos = fromValueSpecRhs fset i spec e) ∧
  (∀ fset i assign, Rhs assign = pre ++ e :: post →
     fromAssignStmt fset i assign pos
     = fromAssignStmtAt fset i assign (length pre) e).
Proof.
  intros Hpre He.
  pose proof (findOperandFrom_first 0 pos pre e post Hpre He) as Hfind.
  simpl in Hfind. fold findOperand in Hfind.
  split_and!.
  - intros fset i call Hargs. unfold fromCallExpr. by rewrite Hargs, Hfind.
  - intros fset i path ret Hres. split.
    + rewrite Hres. by rewrite list_lookup_middle.
    + unfold fromReturnStmt. by rewrite Hres, Hfind.
  - intros fset i spec Hvals. unfold fromValueSpec. by rewrite Hvals, Hfind.
  - intros fset i assign Hrhs. unfold fromAssignStmt. by rewrite Hrhs, Hfind.
Qed.

(** ** Concrete-type resolution (C5) *)

(** C5.  [concreteType] unwraps exactly one level of pointer: for a
    recorded type that is (an alias of) a named type it returns the named
    type with [Pointer = false]; for (an alias of) a pointer to (an alias
    of) a named type it returns the named type with [Pointer = true]; for
    a pointer to a pointer it returns no named type. *)
Theorem concreteType_one_pointer_level e i t :
  TypeOf i (Some e) = Some t →
  (∀ named, Unalias t = NamedT named →
     concreteType e i = (Some named, false)) ∧
  (∀ t' named, Unalias t = types.Pointer t' → Unalias t' = NamedT named →
     concreteType e i = (Some named, true)) ∧
  (∀ t' t'', Unalias t = types.Pointer t' → Unalias t' = types.Pointer t'' →
     concreteType e i = (None, false)).
Proof.
  intros Ht. unfold concreteType. rewrite Ht. split_and!.
  - intros named Hn. by rewrite Hn, Hn.
  - intros t' named Hp Hn. by rewrite Hp, Hn.
  - intros t' t'' Hp Hpp. by rewrite Hp, Hpp.
Qed.

(** ** Interface-type resolution (C3) *)

Lemma ifaceObjFromType_Some t o :
  ifaceObjFromType t = Some o ↔
  ∃ named, Unalias t = NamedT named ∧ o = Obj named ∧
    IsInterface named = true ∧
    (is_Some (Pkg o) ∨ Name o = "error").
Proof.
  unfold ifaceObjFromType. split.
  - destruct (Unalias t) as [| | | | | | |named| |]; try done.
    destruct (IsInterface named) eqn:Hi; simpl; [| done].
    destruct (Pkg (Obj named)) as [p|] eqn:Hp; simpl.
    + intros [= <-]. exists named. rewrite Hp. split_and!; eauto.
    + destruct (String.eqb_spec (Name (Obj named)) "error") as [He|He];
        simpl; [| done].
      intros [= <-]. exists named. split_and!; eauto.
  - intros (named & -> & -> & -> & Hok). simpl.
    destruct (Pkg (Obj named)) as [p|] eqn:Hp; simpl; [done |].
    destruct Hok as [[? [=]] | ->]. done.
Qed.

Lemma ifaceObjFromType_packagedOrError t o :
  ifaceObjFromType t = Some o → packagedOrError o.
Proof.
  intros (named & _ & -> & _ & [H | H])%ifaceObjFromType_Some; [by left |].
  destruct (Pkg (Obj named)) as [p|] eqn:Hp; [left; by rewrite Hp |].
  right. unfold universeError. destruct (Obj named); simpl in *. by subst.
Qed.

Lemma ifaceType_packagedOrError e i o :
  ifaceType e i = Some o → packagedOrError o.
Proof.
  unfold ifaceType. destruct (TypeOf i e); [| done].
  apply ifaceObjFromType_packagedOrError.
Qed.

(** Case analysis on the shared guard on the concrete type. *)
Ltac concrete_cases :=
  repeat match goal with
  | |- context [concreteType ?e ?i] =>
      let c := fresh "concType" in
      let p := fresh "pointer" in
      let H := fresh "Hconc" in
      destruct (concreteType e i) as [[c|] p] eqn:H; simpl
  | |- context [bool_decide (Pkg (Obj ?c) = None)] =>
      let H := fresh "Hpkg" in
      destruct (bool_decide_reflect (Pkg (Obj c) = None)) as [H|H]; simpl
  end.

Lemma fromCallExprArg_interface fset i call argIdx arg si :
  fromCallExprArg fset i call argIdx arg = Done (Some si) →
  ∃ t, ifaceObjFromType t = Some (Interface si).
Proof.
  unfold fromCallExprArg. concrete_cases; try done.
  destruct (TypeOf i (Some (Fun call))) as [tv|]; [| done].
  destruct (Unalias tv) as [| | | | | |params variadic| | |]; try done.
  destruct (paramTypeFor params variadic (Z.of_nat argIdx)) as [[t|]|];
    simpl; try done.
  destruct (ifaceObjFromType t) as [iface|] eqn:Hi; [| done].
  intros [= <-]. eauto.
Qed.

Lemma fromCallExpr_interface fset i pos call si :
  fromCallExpr fset i pos call = Done (Some si) →
  packagedOrError (Interface si).
Proof.
  unfold fromCallExpr. destruct (findOperand pos (Args call)) as [[k a]|];
    [| done].
  intros [t Ht]%fromCallExprArg_interface.
  by eapply ifaceObjFromType_packagedOrError.
Qed.

Lemma fromReturnStmt_interface fset i pos path ret si err :
  fromReturnStmt fset i pos path ret = Done (Some si, err) →
  packagedOrError (Interface si).
Proof.
  unfold fromReturnStmt.
  destruct (findOperand pos (ReturnStmt_Results ret)) as [[k a]|]; [| done].
  unfold fromReturnStmtAt.
  destruct (ReturnStmt_Results ret !! k) as [r|]; [| done].
  concrete_cases; try done.
  destruct (enclosingFunction path i) as [ft|]; [| done].
  destruct (Results ft) as [fl|]; [| done].
  destruct (negb _); [done |].
  destruct (List fl !! k) as [field|]; [| done].
  destruct (ifaceType (Some (Field_Type field)) i) as [iface|] eqn:Hi;
    [| done].
  intros [= <- <-]. simpl. by eapply ifaceType_packagedOrError.
Qed.

Lemma fromValueSpec_interface fset i spec pos si :
  fromValueSpec fset i spec pos = Some si →
  packagedOrError (Interface si).
Proof.
  unfold fromValueSpec. destruct (findOperand pos (Values spec)) as [[k a]|];
    [| done].
  unfold fromValueSpecRhs.
  match goal with |- context [let '(_, _) := ?p in _] => destruct p as [n r] end.
  concrete_cases; try done.
  destruct (ifaceType n i) as [iface|] eqn:Hi; [| done].
  intros [= <-]. simpl. by eapply ifaceType_packagedOrError.
Qed.

Lemma fromAssignStmt_interface fset i assign pos si :
  fromAssignStmt fset i assign pos = Some si →
  packagedOrError (Interface si).
Proof.
  unfold fromAssignStmt. destruct (findOperand pos (Rhs assign)) as [[k a]|];
    [| done].
  unfold fromAssignStmtAt. destruct (Lhs assign !! k) as [lhs|]; [| done].
  destruct (ifaceType (Some lhs) i) as [iface|] eqn:Hi; [| done].
  concrete_cases; try done.
  intros [= <-]. simpl. by eapply ifaceType_packagedOrError.
Qed.

Lemma GetStubInfoFrom_interface fset i path pos rest si :
  GetStubInfoFrom fset i path pos rest = Done (Some si) →
  packagedOrError (Interface si).
Proof.
  induction rest as [|n rest IH]; simpl; [done |].
  destruct n as [s|s|s|c|d|l|]; try done.
  - intros [= H]. by eapply fromValueSpec_interface.
  - destruct (fromReturnStmt fset i pos path s) as [[r err]|] eqn:Hr;
      simpl; [| done].
    intros [= ->]. by eapply fromReturnStmt_interface.
  - intros [= H]. by eapply fromAssignStmt_interface.
  - destruct (fromCallExpr fset i pos c) as [[si'|]|] eqn:Hc; simpl;
      [| done | done].
    intros [= ->]. by eapply fromCallExpr_interface.
Qed.

(** C3.  Interface-type resolution accepts a named interface without a
    declaring package if and only if its name is exactly "error"; any
    other one is rejected.  Hence the [Interface] of every result that
    [GetStubInfo] produces has a declaring package or is the built-in
    [error] interface. *)
Theorem interface_has_package_or_is_error :
  (∀ t named,
     Unalias t = NamedT named → IsInterface named = true →
     Pkg (Obj named) = None →
     (ifaceObjFromType t = Some (Obj named) ↔ Name (Obj named) = "error") ∧
     (Name (Obj named) ≠ "error" → ifaceObjFromType t = None)) ∧
  (∀ fset i path pos si,
     GetStubInfo fset i path pos = Done (Some si) →
     is_Some (Pkg (Interface si)) ∨ Interface si = universeError).
Proof.
  split.
  - intros t named Hn Hi Hp.
    assert (ifaceObjFromType t = Some (Obj named) ↔ Name (Obj named) = "error")
      as Hiff.
    { rewrite ifaceObjFromType_Some. split.
      - intros (n' & Hn' & _ & _ & [[? H] | H]); [| done].
        rewrite Hp in H. done.
      - intros He. exists named. split_and!; auto. }
    split; [done |]. intros Hne.
    unfold ifaceObjFromType. rewrite Hn, Hi, Hp. simpl.
    by destruct (String.eqb_spec (Name (Obj named)) "error").
  - intros fset i path pos si H. by eapply GetStubInfoFrom_interface.
Qed.

(** ** The dispatcher (C2) *)

Lemma GetStubInfoFrom_passedOver fset i path pos pre rest :
  Forall (passedOver fset i pos) pre →
  GetStubInfoFrom fset i path pos (pre ++ rest)
  = GetStubInfoFrom fset i path pos rest.
Proof.
  induction 1 as [|n pre Hn _ IH]; simpl; [done |].
  destruct n as [s|s|s|c|d|l|]; simpl in Hn; try done.
  by rewrite Hn.
Qed.

(** Read for every path, the precedence of an assignment over a failing
    call nested in it fails on [y = func() T { return id(T{}) }()]: the
    call [id(T{})] fails and the assignment resolves to [(I, T)], yet the
    return statement of the function literal lies between them on the
    path and decides the answer, which is no result. *)
Lemma nested_call_in_resolving_assignment_fails :
  ¬ (∀ fset i pos pre c mid a post si,
       fromCallExpr fset i pos c = Done None →
       fromAssignStmt fset i a pos = Some si →
       GetStubInfo fset i (pre ++ NCallExpr c :: mid ++ NAssignStmt a :: post)
         pos
       = Done (Some si)).
Proof.
  intros H.
  specialize (H sample.fset sample.nestedInfo 426%Z [NOther]
                sample.lit_id_call (take 4 (drop 2 sample.y_path))
                sample.y_assign (drop 7 sample.y_path) (sample.I_T false)).
  change ([NOther] ++ NCallExpr sample.lit_id_call
            :: take 4 (drop 2 sample.y_path)
            ++ NAssignStmt sample.y_assign :: drop 7 sample.y_path)
    with sample.y_path in H.
  vm_compute in H. specialize (H eq_refl eq_refl). discriminate H.
Qed.

(** C2 (amended).  [GetStubInfo] walks the path from the innermost node
    outward.  Past nodes of no analysed shape and call expressions whose
    analysis fails, the first declaration, return statement or assignment
    decides the answer, whether its analyzer succeeds or not; a call
    expression whose analysis succeeds decides it too.  In particular a
    failing call nested in an assignment that resolves yields the
    assignment's result when every other node before the assignment is
    of no analysed shape or a call expression whose analysis fails. *)
Theorem GetStubInfo_dispatch fset i pos pre n post :
  Forall (passedOver fset i pos) pre →
  (∀ s, n = NValueSpec s →
     GetStubInfo fset i (pre ++ n :: post) pos
     = Done (fromValueSpec fset i s pos)) ∧
  (∀ s, n = NReturnStmt s →
     GetStubInfo fset i (pre ++ n :: post) pos
     = (fromReturnStmt fset i pos (pre ++ n :: post) s ≫= λ r, Done (fst r))) ∧
  (∀ s, n = NAssignStmt s →
     GetStubInfo fset i (pre ++ n :: post) pos
     = Done (fromAssignStmt fset i s pos)) ∧
  (∀ c si, n = NCallExpr c →
     fromCallExpr fset i pos c = Done (Some si) →
     GetStubInfo fset i (pre ++ n :: post) pos = Done (Some si)) ∧
  (∀ c mid a post' si,
     n = NCallExpr c →
     fromCallExpr fset i pos c = Done None →
     Forall (passedOver fset i pos) mid →
     post = mid ++ NAssignStmt a :: post' →
     fromAssignStmt fset i a pos = Some si →
     GetStubInfo fset i (pre ++ n :: post) pos = Done (Some si)).
Proof.
  intros Hpre. unfold GetStubInfo.
  rewrite (GetStubInfoFrom_passedOver _ _ _ _ _ _ Hpre).
  split_and!.
  - by intros s ->.
  - by intros s ->.
  - by intros s ->.
  - intros c si -> Hc. simpl. by rewrite Hc.
  - intros c mid a post' si -> Hc Hmid -> Ha. simpl. rewrite Hc. simpl.
    rewrite (GetStubInfoFrom_passedOver _ _ _ _ _ _ Hmid). simpl.
    by rewrite Ha.
Qed.

(** ** The call analyzer (C6) *)

Lemma At_lookup (params : list Type_) (k : nat) t :
  params !! k = Some t → At params (Z.of_nat k) = Done t.
Proof.
  intros H. unfold At.
  destruct (Z.ltb_spec (Z.of_nat k) 0) as [Hlt|_]; [lia |].
  by rewrite Nat2Z.id, H.
Qed.

Lemma At_last (params : list Type_) t :
  last params = Some t → At params (Len params - 1) = Done t.
Proof.
  intros H. unfold Len.
  assert (params !! (length params - 1)%nat = Some t) as Hl.
  { rewrite last_lookup in H. by rewrite Nat.sub_1_r. }
  pose proof (lookup_lt_Some _ _ _ Hl).
  replace (Z.of_nat (length params) - 1)%Z
    with (Z.of_nat (length params - 1)) by lia.
  by apply At_lookup.
Qed.

(** Read with the threshold at the last fixed parameter, the rule for
    variadic calls fails on [v(T{}, T{}, T{})] for [func v(x T, ys ...I)]:
    the first argument sits at the index of the last fixed parameter [x]
    and is matched against [T], not against the element type [I]. *)
Lemma variadic_from_last_fixed_parameter_fails :
  ¬ (∀ fset i pos call argIdx arg concType pointer tv params elem,
       findOperand pos (Args call) = Some (argIdx, arg) →
       concreteType arg i = (Some concType, pointer) →
       is_Some (Pkg (Obj concType)) →
       TypeOf i (Some (Fun call)) = Some tv →
       Unalias tv = Signature params true →
       last params = Some (Slice elem) →
       (lastFixedParam params ≤ Z.of_nat argIdx)%Z →
       fromCallExpr fset i pos call
       = Done (matchedAgainst fset concType pointer elem)).
Proof.
  intros H.
  specialize (H sample.fset sample.info 203%Z sample.v_call 0 sample.v_a1
                sample.T false _ _ (NamedT sample.I)
                eq_refl eq_refl (ex_intro _ _ eq_refl) eq_refl eq_refl
                eq_refl).
  vm_compute in H. specialize (H (λ e, match e with end) : _).
  discriminate H.
Qed.

(** C6 (amended).  For a call whose argument at index [argIdx] contains
    the position and has a resolved concrete type, and whose callee has a
    signature with parameters [params]: when the signature is variadic
    and [argIdx] is at or past the index of the variadic parameter, that
    is, past the last fixed parameter, the argument is matched against
    the element type of the variadic slice parameter; at a smaller index,
    the last fixed parameter's included, or at any index in range of a
    signature that is not variadic, it is matched against the parameter
    type at that index; and out of range of a signature that is not
    variadic the call analyzer fails. *)
Theorem fromCallExpr_parameter_alignment
    fset i pos call argIdx arg concType pointer tv params variadic :
  findOperand pos (Args call) = Some (argIdx, arg) →
  concreteType arg i = (Some concType, pointer) →
  is_Some (Pkg (Obj concType)) →
  TypeOf i (Some (Fun call)) = Some tv →
  Unalias tv = Signature params variadic →
  (∀ elem, variadic = true → (Len params - 1 ≤ Z.of_nat argIdx)%Z →
     last params = Some (Slice elem) →
     fromCallExpr fset i pos call
     = Done (matchedAgainst fset concType pointer elem)) ∧
  (∀ t, variadic = true → (Z.of_nat argIdx < Len params - 1)%Z →
     params !! argIdx = Some t →
     fromCallExpr fset i pos call
     = Done (matchedAgainst fset concType pointer t)) ∧
  (∀ t, variadic = false → params !! argIdx = Some t →
     fromCallExpr fset i pos call
     = Done (matchedAgainst fset concType pointer t)) ∧
  (variadic = false → (Len params ≤ Z.of_nat argIdx)%Z →
     fromCallExpr fset i pos call = Done None).
Proof.
  intros Hfind Hconc [p Hp] Htv Hsig.
  unfold fromCallExpr, fromCallExprArg. rewrite Hfind, Hconc, Htv, Hsig.
  rewrite bool_decide_eq_false_2 by (rewrite Hp; done).
  unfold matchedAgainst, paramTypeFor.
  split_and!.
  - intros elem -> Hge Hlast. simpl.
    destruct (Z.leb_spec (Len params - 1) (Z.of_nat argIdx)); [| lia].
    rewrite (At_last _ _ Hlast). simpl.
    by destruct (ifaceObjFromType elem).
  - intros t -> Hlt Ht. simpl.
    destruct (Z.leb_spec (Len params - 1) (Z.of_nat argIdx)); [lia |].
    destruct (Z.ltb_spec (Z.of_nat argIdx) (Len params)); [| lia].
    rewrite (At_lookup _ _ _ Ht). simpl.
    by destruct (ifaceObjFromType t).
  - intros t -> Ht. simpl.
    pose proof (lookup_lt_Some _ _ _ Ht). unfold Len.
    destruct (Z.ltb_spec (Z.of_nat argIdx) (Z.of_nat (length params)));
      [| lia].
    rewrite (At_lookup _ _ _ Ht). simpl.
    by destruct (ifaceObjFromType t).
  - intros -> Hge. simpl.
    by destruct (Z.ltb_spec (Z.of_nat argIdx) (Len params)); [lia |].
Qed.

(** ** The declaration analyzer (C7) *)

(** C7.  For a position inside the concrete operand [v], the conversion
    form [var _ = I(v)] (no declared type, one initializer that is a call
    with the single argument [v], lying between the callee and the closing
    parenthesis) and the typed form [var _ I = v], where the callee of the
    conversion and the declared type denote the same type, yield the same
    result. *)
Theorem fromValueSpec_conversion_form fset i pos names call v typeExpr :
  Args call = [v] →
  TypeOf i (Some (Fun call)) = TypeOf i (Some typeExpr) →
  (Pos_ (Fun call) ≤ Pos_ v)%Z →
  (End_ v ≤ Rparen call)%Z →
  (Pos_ v ≤ pos ≤ End_ v)%Z →
  fromValueSpec fset i
    {| ValueSpec_Names := names; ValueSpec_Type := None;
       Values := [ECall call] |} pos
  = fromValueSpec fset i
      {| ValueSpec_Names := names; ValueSpec_Type := Some typeExpr;
         Values := [v] |} pos.
Proof.
  intros Hargs Hty Hlo Hhi Hpos.
  assert (spans pos v = true) as Hv by (by apply spans_within).
  assert (spans pos (ECall call) = true) as Hc.
  { apply spans_within. unfold within. simpl. lia. }
  unfold fromValueSpec, findOperand. simpl. rewrite Hv, Hc.
  unfold fromValueSpecRhs. simpl. rewrite Hargs.
  unfold ifaceType. rewrite Hty.
  destruct v; reflexivity.
Qed.

(** ** Alias transparency (C4) *)














Section dealias_info.
Context (fset : FileSet) (i : Info).








End dealias_info.




(** ** The return analyzer (C1, C8) *)

Lemma declaredResults_ungrouped ft fl :
  Results ft = Some fl → ungrouped fl →
  declaredResults ft = Field_Type <$> List fl.
Proof.
  unfold declaredResults, ungrouped. intros ->.
  induction 1 as [|f l Hf _ IH]; simpl; [done |].
  rewrite IH. unfold fieldResults.
  by replace (Nat.max 1 (length (Names f))) with 1 by lia.
Qed.

(** The return analyzer after the operand loop, in terms of the
    specification's vocabulary, for a function with a plain result
    list. *)
Lemma fromReturnStmtAt_plain fset i path ret idx r :
  ReturnStmt_Results ret !! idx = Some r →
  plainResults i path →
  fromReturnStmtAt fset i path ret idx =
  match resolveConcrete r i with
  | None => Done (None, None)
  | Some (concType, pointer) =>
      match enclosingFunction path i with
      | None => Done (None, Some ErrNoEnclosingFunction)
      | Some ft =>
          if decide (length (declaredResults ft)
                     = length (ReturnStmt_Results ret))
          then
            match declaredResults ft !! idx with
            | Some t =>
                match ifaceType (Some t) i with
                | Some iface =>
                    Done (Some {| Fset := fset; Concrete := concType;
                                  Pointer := pointer;
                                  Interface := iface |}, None)
                | None => Done (None, None)
                end
            | None => Panic
            end
          else Done (None, Some (ErrOperandCount
                                   (length (ReturnStmt_Results ret))
                                   (length (declaredResults ft))))
      end
  end.
Proof.
  intros Hr Hplain. unfold fromReturnStmtAt, resolveConcrete. rewrite Hr.
  destruct (concreteType r i) as [[concType|] pointer]; [| done].
  destruct (Pkg (Obj concType)) as [pk|] eqn:Hpk; simpl; [| done].
  destruct (enclosingFunction path i) as [ft|] eqn:Hft; [| done].
  destruct (Hplain ft Hft) as (fl & Hfl & Hun).
  rewrite Hfl, (declaredResults_ungrouped ft fl Hfl Hun), length_fmap.
  rewrite list_lookup_fmap.
  destruct (Nat.eqb_spec (length (List fl)) (length (ReturnStmt_Results ret)))
    as [Heq|Hne]; simpl.
  - rewrite decide_True by done.
    by destruct (List fl !! idx) as [field|]; simpl.
  - by rewrite decide_False by done.
Qed.

Lemma ex_matched_operand {A B} (a : A) (b : B) (P : A → B → Prop) :
  (∃ x y, Some (a, b) = Some (x, y) ∧ P x y) ↔ P a b.
Proof.
  split; [by intros (x & y & [= <- <-] & H) | intros H; by exists a, b].
Qed.

Lemma ex_no_operand {A B} (P : A → B → Prop) :
  (∃ x y, @None (A * B) = Some (x, y) ∧ P x y) ↔ False.
Proof. split; [by intros (x & y & [=] & _) | done]. Qed.

(** C8 (amended).  For an enclosing function whose result list has one
    field per result, [fromReturnStmt] returns an explicit error exactly
    when no operand contains the position, or the matched operand's
    concrete type resolves and either the path has no enclosing function
    with recorded type information or the function declares a number of
    results different from the number of operands; and it returns neither
    a result nor an error exactly when an operand contains the position
    and its concrete type does not resolve, or it resolves, the counts
    agree and the declared result at the operand's index does not resolve
    to an interface. *)
Theorem fromReturnStmt_error_cases fset i pos path ret :
  plainResults i path →
  (returnsError fset i pos path ret ↔
     noOperandAt pos ret ∨ noEnclosingFunction i pos path ret ∨
     resultCountDiffersAfter i pos path ret) ∧
  (returnsNothing fset i pos path ret ↔ unresolved i pos path ret).
Proof.
  intros Hplain.
  unfold returnsError, returnsNothing, noOperandAt, noEnclosingFunction,
    resultCountDiffersAfter, resultCountDiffers, unresolved, fromReturnStmt.
  destruct (findOperand pos (ReturnStmt_Results ret)) as [[idx r]|] eqn:Hfind.
  - pose proof (findOperand_lookup _ _ _ _ Hfind) as Hr.
    pose proof (lookup_lt_Some _ _ _ Hr) as Hlt.
    assert (¬ Forall (λ r, ¬ within pos r) (ReturnStmt_Results ret)) as Hno.
    { intros H%(findOperandFrom_None 0). unfold findOperand in Hfind.
      congruence. }
    rewrite (fromReturnStmtAt_plain _ _ _ _ _ _ Hr Hplain).
    rewrite !ex_matched_operand.
    destruct (resolveConcrete r i) as [[concType pointer]|];
      [| naive_solver].
    destruct (enclosingFunction path i) as [ft|]; [| naive_solver].
    destruct (decide (length (declaredResults ft)
                      = length (ReturnStmt_Results ret))) as [Heq|Hne];
      [| naive_solver].
    destruct (declaredResults ft !! idx) as [t|] eqn:Ht;
      [| apply lookup_ge_None in Ht; lia].
    destruct (ifaceType (Some t) i) as [iface|] eqn:Hi; naive_solver.
  - apply (findOperandFrom_None 0) in Hfind.
    rewrite !ex_no_operand. naive_solver.
Qed.

(** The claim as the specification words it, with the third condition
    unconditional, fails on [func k() (I, I) { return 1 }]: the function
    declares two results for one operand, yet the operand's type [int]
    does not resolve, and nothing is reported. *)
Lemma fromReturnStmt_error_iff_as_stated_fails :
  ¬ (returnsError sample.fset sample.info 130 sample.k_path sample.k_ret ↔
       noOperandAt 130 sample.k_ret ∨
       noEnclosingFunction sample.info 130 sample.k_path sample.k_ret ∨
       resultCountDiffers sample.info sample.k_path sample.k_ret).
Proof.
  intros [_ H]. destruct H as [err Herr].
  - right. right. exists sample.k_type. split; [reflexivity |].
    vm_compute. intros [=].
  - vm_compute in Herr. discriminate Herr.
Qed.

(** Apart from grouped result fields, the return analyzer produces the
    declared result type and the operand's named type. *)
Lemma fromReturnStmt_plain_result
    fset i pos path ret idx r concType pointer ft t iface :
  findOperand pos (ReturnStmt_Results ret) = Some (idx, r) →
  resolveConcrete r i = Some (concType, pointer) →
  plainResults i path →
  enclosingFunction path i = Some ft →
  length (declaredResults ft) = length (ReturnStmt_Results ret) →
  declaredResults ft !! idx = Some t →
  ifaceType (Some t) i = Some iface →
  fromReturnStmt fset i pos path ret
  = Done (Some {| Fset := fset; Concrete := concType; Pointer := pointer;
                  Interface := iface |}, None).
Proof.
  intros Hfind Hconc Hplain Hft Hlen Ht Hi. unfold fromReturnStmt.
  rewrite Hfind.
  rewrite (fromReturnStmtAt_plain _ _ _ _ _ _
             (findOperand_lookup _ _ _ _ Hfind) Hplain).
  rewrite Hconc, Hft, Ht, Hi. by rewrite decide_True.
Qed.

(** C1.  On [func f() (a, b I) { return T{}, T{} }] with the position in
    the first operand, the operand resolves to the named type [T], the
    enclosing function is found and declares the named interface [I] for
    both results, yet [fromReturnStmt] reports an operand-count error:
    it compares the number of operands with the number of result fields,
    and the field [a, b I] is one field for two results. *)
Theorem fromReturnStmt_grouped_results_error :
  findOperand 29 (ReturnStmt_Results sample.f_ret) = Some (0, sample.f_op1) ∧
  resolveConcrete sample.f_op1 sample.info = Some (sample.T, false) ∧
  enclosingFunction sample.f_path sample.info = Some sample.f_type ∧
  declaredResults sample.f_type = [sample.f_I; sample.f_I] ∧
  ifaceType (Some sample.f_I) sample.info = Some (Obj sample.I) ∧
  fromReturnStmt sample.fset sample.info 29 sample.f_path sample.f_ret
  = Done (None, Some (ErrOperandCount 2 1)).
Proof. vm_compute. by repeat split. Qed.

(** The enclosing function is sought from the innermost node of the
    whole path, not from the return statement outward: on
    [func m() I { return W{f: func() error { return nil }} }] with the
    position on the function literal inside the operand, the literal's
    result type [error] is taken instead of [I]. *)
Lemma fromReturnStmt_literal_in_operand :
  enclosingFunction sample.m_path sample.info = Some sample.m_lit_type ∧
  fromReturnStmt sample.fset sample.info 305 sample.m_path sample.m_ret
  = Done (Some {| Fset := sample.fset; Interface := universeError;
                  Concrete := sample.W; Pointer := false |}, None).
Proof. vm_compute. by split. Qed.

(** ** Panics (C9) *)

Lemma paramTypeFor_Done params variadic k :
  (variadic = true → params ≠ []) →
  ∃ r, paramTypeFor params variadic (Z.of_nat k) = Done r.
Proof.
  intros Hne. unfold paramTypeFor.
  destruct (variadic && _) eqn:Hv; simpl.
  - apply andb_true_iff in Hv as [-> _].
    destruct (last params) as [t|] eqn:Hl.
    + rewrite (At_last _ _ Hl). simpl. destruct t; eauto.
    + apply last_None in Hl. by destruct Hne.
  - destruct (Z.ltb_spec (Z.of_nat k) (Len params)) as [Hlt|_]; [| eauto].
    unfold Len in Hlt.
    destruct (lookup_lt_is_Some_2 params k) as [t Ht]; [lia |].
    rewrite (At_lookup _ _ _ Ht). simpl. eauto.
Qed.

Lemma fromCallExpr_Done fset i pos call :
  variadicHasParam i →
  ∃ r, fromCallExpr fset i pos call = Done r.
Proof.
  intros Hvar. unfold fromCallExpr, fromCallExprArg.
  destruct (findOperand pos (Args call)) as [[k a]|]; [| eauto].
  destruct (concreteType a i) as [[concType|] pointer]; [| eauto].
  destruct (bool_decide (Pkg (Obj concType) = None)); [eauto |].
  destruct (TypeOf i (Some (Fun call))) as [tv|] eqn:Htv; [| eauto].
  destruct (Unalias tv) as [| | | | | |params variadic| | |] eqn:Hu; eauto.
  destruct (paramTypeFor_Done params variadic k) as [[t|] ->]; simpl.
  - intros ->. by eapply Hvar.
  - destruct (ifaceObjFromType t); eauto.
  - eauto.
Qed.

Lemma enclosingFunction_elem_of path i ft :
  enclosingFunction path i = Some ft →
  (∃ d, NFuncDecl d ∈ path ∧ FuncDecl_Type d = ft) ∨
  (∃ l, NFuncLit l ∈ path ∧ FuncLit_Type l = ft).
Proof.
  induction path as [|n path IH]; [done |].
  unfold enclosingFunction; fold enclosingFunction.
  assert (enclosingFunction path i = Some ft →
          (∃ d, NFuncDecl d ∈ n :: path ∧ FuncDecl_Type d = ft) ∨
          (∃ l, NFuncLit l ∈ n :: path ∧ FuncLit_Type l = ft)) as IH'.
  { intros [(d & ? & ?) | (l & ? & ?)]%IH; [left; exists d | right; exists l];
      by rewrite elem_of_cons; auto. }
  destruct n as [| | | |d|l|]; try done.
  - destruct (Defs i !! FuncDecl_Name d); [| done].
    intros [= <-]. left. exists d. by rewrite elem_of_cons; auto.
  - destruct (Types i !! FuncLit_id l); [| done].
    intros [= <-]. right. exists l. by rewrite elem_of_cons; auto.
Qed.

Lemma fromReturnStmt_Done fset i pos path ret :
  resultListsPresent path →
  ∃ r, fromReturnStmt fset i pos path ret = Done r.
Proof.
  intros Hres. unfold fromReturnStmt, fromReturnStmtAt.
  destruct (findOperand pos (ReturnStmt_Results ret)) as [[k a]|] eqn:Hfind;
    [| eauto].
  pose proof (findOperand_lookup _ _ _ _ Hfind) as Hk. rewrite Hk.
  destruct (concreteType a i) as [[concType|] pointer]; [| eauto].
  destruct (bool_decide (Pkg (Obj concType) = None)); [eauto |].
  destruct (enclosingFunction path i) as [ft|] eqn:Hft; [| eauto].
  assert (is_Some (Results ft)) as [fl ->].
  { apply enclosingFunction_elem_of in Hft as [(d & Hd & <-) | (l & Hl & <-)].
    - apply (Hres _ Hd).
    - apply (Hres _ Hl). }
  destruct (Nat.eqb_spec (length (List fl)) (length (ReturnStmt_Results ret)))
    as [Heq|Hne]; simpl; [| eauto].
  destruct (lookup_lt_is_Some_2 (List fl) k) as [field ->].
  { rewrite Heq. by eapply lookup_lt_Some. }
  destruct (ifaceType (Some (Field_Type field)) i); eauto.
Qed.

(** The two panics are the only ones: with a result list on every
    function of the path and a parameter in every variadic signature,
    [GetStubInfo] completes. *)
Lemma GetStubInfo_Done fset i path pos :
  variadicHasParam i →
  resultListsPresent path →
  ∃ r, GetStubInfo fset i path pos = Done r.
Proof.
  intros Hvar Hres. unfold GetStubInfo. generalize path at 2 as rest.
  induction rest as [|n rest IH]; simpl; [eauto |].
  destruct n as [s|s|s|c|d|l|]; eauto.
  - destruct (fromReturnStmt_Done fset i pos path s Hres) as [r ->].
    simpl. eauto.
  - destruct (fromCallExpr_Done fset i pos c Hvar) as [[si|] ->]; simpl;
      eauto.
Qed.

(** C9.  On [func g() { return T{} }] with the position in the operand,
    [GetStubInfo] panics: the function has no result list
    ([FuncType.Results] is nil) and [fromReturnStmt] selects its [List]
    field. *)
Theorem GetStubInfo_panics_without_result_list :
  enclosingFunction sample.g_path sample.info = Some sample.g_type ∧
  Results sample.g_type = None ∧
  GetStubInfo sample.fset sample.info sample.g_path 69 = Panic.
Proof. vm_compute. by repeat split. Qed.

(** ** The theorems at work on the sample package *)



Lemma first_spanning_operand_is_matched_witness :
  Forall (λ x, ¬ (Pos_ x ≤ 208 ≤ End_ x)%Z) [sample.v_a1] ∧
  (Pos_ sample.v_a2 ≤ 208 ≤ End_ sample.v_a2)%Z ∧
  fromCallExpr sample.fset sample.info 208 sample.v_call
  = fromCallExprArg sample.fset sample.info sample.v_call 1 sample.v_a2.
Proof.
  assert (Forall (λ x, ¬ (Pos_ x ≤ 208 ≤ End_ x)%Z) [sample.v_a1]) as H1.
  { repeat constructor. simpl. lia. }
  assert (Pos_ sample.v_a2 ≤ 208 ≤ End_ sample.v_a2)%Z as H2.
  { simpl. lia. }
  refine (conj H1 (conj H2 _)).
  exact (proj1 (first_spanning_operand_is_matched 208 [sample.v_a1]
                  sample.v_a2 [sample.v_a3] H1 H2)
           sample.fset sample.info sample.v_call eq_refl).
Defined.

Lemma concreteType_one_pointer_level_witness :
  TypeOf sample.info (Some sample.h_op) = Some (types.Pointer (NamedT sample.T)) ∧
  concreteType sample.h_op sample.info = (Some sample.T, true).
Proof.
  assert (TypeOf sample.info (Some sample.h_op)
          = Some (types.Pointer (NamedT sample.T))) as H by reflexivity.
  split; [exact H |].
  exact (proj1 (proj2 (concreteType_one_pointer_level sample.h_op sample.info
                         _ H))
           (NamedT sample.T) sample.T eq_refl eq_refl).
Defined.

Lemma interface_has_package_or_is_error_witness :
  ifaceObjFromType (NamedT sample.error_) = Some universeError ∧
  ifaceObjFromType (NamedT sample.comparable) = None ∧
  (GetStubInfo sample.fset sample.info sample.h_path 100
   = Done (Some (sample.I_T true)) ∧
   (is_Some (Pkg (Interface (sample.I_T true))) ∨
    Interface (sample.I_T true) = universeError)).
Proof.
  destruct interface_has_package_or_is_error as [Hres Hget].
  split_and!.
  - exact (proj2 (proj1 (Hres (NamedT sample.error_) sample.error_
                           eq_refl eq_refl eq_refl)) eq_refl).
  - apply (proj2 (Hres (NamedT sample.comparable) sample.comparable
                    eq_refl eq_refl eq_refl)).
    simpl. intros [=].
  - reflexivity.
  - exact (Hget sample.fset sample.info sample.h_path 100%Z _ eq_refl).
Defined.

Lemma GetStubInfo_dispatch_witness :
  Forall (passedOver sample.fset sample.info 238) [NOther] ∧
  fromCallExpr sample.fset sample.info 238 sample.id_call = Done None ∧
  fromAssignStmt sample.fset sample.info sample.x_assign 238
  = Some (sample.I_T false) ∧
  GetStubInfo sample.fset sample.info sample.x_path 238
  = Done (Some (sample.I_T false)).
Proof.
  assert (Forall (passedOver sample.fset sample.info 238) [NOther]) as H1.
  { repeat constructor. }
  split_and!; [exact H1 | reflexivity | reflexivity |].
  apply (proj2 (proj2 (proj2 (proj2
           (GetStubInfo_dispatch sample.fset sample.info 238 [NOther]
              (NCallExpr sample.id_call) (drop 2 sample.x_path) H1))))
         sample.id_call [] sample.x_assign (drop 3 sample.x_path)
         (sample.I_T false) eq_refl).
  - reflexivity.
  - constructor.
  - reflexivity.
  - reflexivity.
Defined.

Lemma fromCallExpr_parameter_alignment_witness :
  findOperand 213 (Args sample.v_call) = Some (2, sample.v_a3) ∧
  fromCallExpr sample.fset sample.info 213 sample.v_call
  = Done (matchedAgainst sample.fset sample.T false (NamedT sample.I)) ∧
  findOperand 203 (Args sample.v_call) = Some (0, sample.v_a1) ∧
  fromCallExpr sample.fset sample.info 203 sample.v_call
  = Done (matchedAgainst sample.fset sample.T false (NamedT sample.T)).
Proof.
  assert (is_Some (Pkg (Obj sample.T))) as Hp by (eexists; reflexivity).
  split_and!.
  - reflexivity.
  - apply (proj1 (fromCallExpr_parameter_alignment sample.fset sample.info
                    213 sample.v_call 2 sample.v_a3 sample.T false _ _ _
                    eq_refl eq_refl Hp eq_refl eq_refl)
             (NamedT sample.I) eq_refl).
    + vm_compute. intros [=].
    + reflexivity.
  - reflexivity.
  - apply (proj1 (proj2 (fromCallExpr_parameter_alignment sample.fset
                    sample.info 203 sample.v_call 0 sample.v_a1 sample.T
                    false _ _ _ eq_refl eq_refl Hp eq_refl eq_refl))
             (NamedT sample.T) eq_refl).
    + vm_compute. reflexivity.
    + reflexivity.
Defined.

Lemma fromValueSpec_conversion_form_witness :
  (Pos_ sample.conv_arg ≤ 261 ≤ End_ sample.conv_arg)%Z ∧
  fromValueSpec sample.fset sample.info
    {| ValueSpec_Names := [94%positive]; ValueSpec_Type := None;
       Values := [ECall sample.conv_call] |} 261
  = fromValueSpec sample.fset sample.info
      {| ValueSpec_Names := [94%positive];
         ValueSpec_Type := Some sample.typed_I;
         Values := [sample.conv_arg] |} 261 ∧
  fromValueSpec sample.fset sample.info
    {| ValueSpec_Names := [94%positive];
       ValueSpec_Type := Some sample.typed_I;
       Values := [sample.conv_arg] |} 261
  = Some (sample.I_T false).
Proof.
  assert (Pos_ sample.conv_arg ≤ 261 ≤ End_ sample.conv_arg)%Z as Hpos.
  { simpl. lia. }
  refine (conj Hpos (conj _ eq_refl)).
  apply (fromValueSpec_conversion_form sample.fset sample.info 261
           [94%positive] sample.conv_call sample.conv_arg sample.typed_I).
  - reflexivity.
  - reflexivity.
  - simpl. lia.
  - simpl. lia.
  - exact Hpos.
Defined.


Lemma fromReturnStmt_error_cases_witness :
  plainResults sample.info sample.k_path ∧
  unresolved sample.info 130 sample.k_path sample.k_ret ∧
  returnsNothing sample.fset sample.info 130 sample.k_path sample.k_ret ∧
  noOperandAt 125 sample.k_ret ∧
  returnsError sample.fset sample.info 125 sample.k_path sample.k_ret.
Proof.
  assert (plainResults sample.info sample.k_path) as Hplain.
  { intros ft [= <-]. eexists. split; [reflexivity |].
    repeat constructor. }
  assert (unresolved sample.info 130 sample.k_path sample.k_ret) as Hun.
  { exists 0, sample.k_op. split; [reflexivity |]. left. reflexivity. }
  assert (noOperandAt 125 sample.k_ret) as Hno.
  { repeat constructor. unfold within. simpl. lia. }
  split_and!; [exact Hplain | exact Hun | | exact Hno |].
  - apply (proj2 (fromReturnStmt_error_cases sample.fset sample.info 130
                    sample.k_path sample.k_ret Hplain)). exact Hun.
  - apply (proj1 (fromReturnStmt_error_cases sample.fset sample.info 125
                    sample.k_path sample.k_ret Hplain)). left. exact Hno.
Defined.
